(** * Upload job tracking in the DoxaSense front end

    A shallow embedding of the upload queue kept by the [App] component
    (frontend [App.js]): [handleUpload] creates and merges queue entries,
    [checkUploadStatuses] polls the status endpoint, refreshes the document
    list and schedules the removal of completed entries, and a [useEffect]
    drives the polling from an interval timer. *)

From Stdlib Require Import ZArith Lia.
From stdpp Require Import base option list strings pretty.

Local Open Scope Z_scope.

(** ** JavaScript values used by the component *)

Module Js.

(** [x || d] on a possibly absent number: [undefined], [null] and [0] are
    falsy. *)
Definition orNum (x : option Z) (d : Z) : Z :=
  match x with
  | Some v => if v =? 0 then d else v
  | None => d
  end.

(** [x || d] on a possibly absent string: the empty string is falsy. *)
Definition orStr (x : option string) (d : string) : string :=
  match x with
  | Some s => if bool_decide (s = "") then d else s
  | None => d
  end.

(** [a - b] where [b] may be [undefined]: the result is then [NaN],
    written [None]. *)
Definition sub (a : Z) (b : option Z) : option Z :=
  (λ t, a - t) <$> b.

(** [x > c]: every comparison with [NaN] is false. *)
Definition gt (x : option Z) (c : Z) : bool :=
  match x with
  | Some v => v >? c
  | None => false
  end.

(** [`${x}`] for a string or [null]. *)
Definition template (x : option string) : string :=
  default "null" x.

End Js.

(** ** Data model *)

(** An element of the [uploadQueue] state.  [message] and [completedAt] are
    properties the object literal of [handleUpload] does not create; [None]
    is [undefined] (or [null] for [jobId] and [documentId]). *)
Record Item := mkItem {
  id : string;
  filename : string;
  status : string;
  progress : Z;
  jobId : option string;
  documentId : option string;
  message : option string;
  completedAt : option Z;
}.

(** [response.data] of [GET /job/<jobId>/status]. *)
Module JobStatus.
Record Result := mkResult { message : option string }.
Record t := mk {
  status : string;
  progress : option Z;
  result : option Result;
}.
End JobStatus.

(** Outcome of one awaited request: the promise resolves with the response
    data or rejects (network error, non-2xx answer). *)
Inductive Outcome (A : Type) :=
| Resolved (data : A)
| Rejected.
Arguments Resolved {A} data.
Arguments Rejected {A}.

Definition API_BASE : string := "/api/ingest".

(** ** [checkUploadStatuses] *)

(** [item.status === 'completed' || item.status === 'failed'] *)
Definition isFinished (item : Item) : bool :=
  bool_decide (status item = "completed") || bool_decide (status item = "failed").

(** The URL requested for an item. *)
Definition statusUrl (item : Item) : string :=
  API_BASE +:+ "/job/" +:+ Js.template (jobId item) +:+ "/status".

(** The callback mapped over the queue; [outcome] is the outcome of the
    request it awaits, consulted only for items that are not finished. *)
Definition pollItem (outcome : Outcome JobStatus.t) (item : Item) : Item :=
  if isFinished item then item
  else match outcome with
       | Resolved jobStatus =>
           {| id := id item;
              filename := filename item;
              status := JobStatus.status jobStatus;
              progress := Js.orNum (JobStatus.progress jobStatus) 0;
              jobId := jobId item;
              documentId := documentId item;
              message :=
                Some (Js.orStr (JobStatus.result jobStatus ≫= JobStatus.message) "");
              completedAt := completedAt item |}
       | Rejected => item
       end.

(** [await Promise.all(uploadQueue.map(async (item) => ...))]; [fetch idx]
    is the outcome of the request issued for position [idx]. *)
Definition updatedQueue (fetch : nat → Outcome JobStatus.t)
    (uploadQueue : list Item) : list Item :=
  imap (λ idx item, pollItem (fetch idx) item) uploadQueue.

(** The requests a pass issues: one per item that is not finished, in queue
    order, tagged with the position it belongs to. *)
Definition requests (uploadQueue : list Item) : list (nat * string) :=
  omap (λ p : nat * Item, if isFinished p.2 then None else Some (p.1, statusUrl p.2))
       (imap pair uploadQueue).

(** [updatedQueue.some((item, idx) =>
       item.status === 'completed' && uploadQueue[idx]?.status !== 'completed')] *)
Definition hasCompleted (updated uploadQueue : list Item) : bool :=
  existsb (λ b : bool, b)
    (imap (λ idx item,
             bool_decide (status item = "completed")
             && negb (bool_decide (status <$> uploadQueue !! idx = Some "completed")))
          updated).

(** What a pass does once every request has settled. *)
Inductive Effect :=
| SetUploadQueue (queue : list Item)
| FetchDocuments
| SetTimeout (delay : Z).

Definition checkUploadStatuses (fetch : nat → Outcome JobStatus.t)
    (uploadQueue : list Item) : list Effect :=
  let updated := updatedQueue fetch uploadQueue in
  [SetUploadQueue updated]
  ++ (if hasCompleted updated uploadQueue then [FetchDocuments] else [])
  ++ [SetTimeout 5000].

Definition isFetchDocuments (e : Effect) : bool :=
  match e with FetchDocuments => true | _ => false end.

(** Number of refresh signals among the effects of a pass. *)
Definition refreshSignals (effects : list Effect) : nat :=
  length (List.filter isFetchDocuments effects).

(** The callback of the timeout:
    [prev.filter(item =>
       !(item.status === 'completed' && Date.now() - item.completedAt > 5000))] *)
Definition sweepKeeps (now : Z) (item : Item) : bool :=
  negb (bool_decide (status item = "completed")
        && Js.gt (Js.sub now (completedAt item)) 5000).

Definition sweep (now : Z) (prev : list Item) : list Item :=
  List.filter (sweepKeeps now) prev.

(** ** [handleUpload] *)

(** [Date.now().toString()] *)
Definition uploadId (now : Z) : string := pretty now.

Definition newItem (now : Z) (name : string) : Item :=
  {| id := uploadId now;
     filename := name;
     status := "uploading";
     progress := 0;
     jobId := None;
     documentId := None;
     message := None;
     completedAt := None |}.

(** [prev => [...prev, {...}]] *)
Definition enqueue (now : Z) (name : string) (prev : list Item) : list Item :=
  prev ++ [newItem now name].

(** The merge after [axios.post] resolved with [job_id] and [document_id]. *)
Definition uploadResolved (uid : string) (job_id document_id : option string)
    (prev : list Item) : list Item :=
  (λ item,
     if bool_decide (id item = uid)
     then {| id := id item;
             filename := filename item;
             status := "queued";
             progress := progress item;
             jobId := job_id;
             documentId := document_id;
             message := message item;
             completedAt := completedAt item |}
     else item) <$> prev.

(** The merge in the [catch] branch:
    [message: error.response?.data?.detail || error.message]. *)
Definition uploadRejected (uid : string) (detail : option string)
    (errorMessage : string) (prev : list Item) : list Item :=
  (λ item,
     if bool_decide (id item = uid)
     then {| id := id item;
             filename := filename item;
             status := "failed";
             progress := progress item;
             jobId := jobId item;
             documentId := documentId item;
             message := Some (Js.orStr detail errorMessage);
             completedAt := completedAt item |}
     else item) <$> prev.

(** ** The component as an event-driven machine

    JavaScript runs each callback to completion, so the component is a state
    changed by events: the synchronous start of [handleUpload], the
    settlement of its [axios.post] (resolved or rejected), a firing of the polling interval, the
    settlement of the [Promise.all] of a pass, and a firing of the removal
    timeout. *)

Record App := mkApp {
  uploadQueue : list Item;
  (** snapshots of [uploadQueue] held by the passes still awaiting requests *)
  passes : list (list Item);
  (** calls of [fetchDocuments] made by passes so far *)
  documentFetches : nat;
  (** removal timeouts scheduled and not yet fired *)
  timeouts : nat;
}.

Definition initial : App :=
  {| uploadQueue := []; passes := []; documentFetches := 0%nat; timeouts := 0%nat |}.

Inductive Event :=
| Upload (now : Z) (name : string)
| UploadResolved (uid : string) (job_id document_id : option string)
| UploadRejected (uid : string) (detail : option string) (errorMessage : string)
| Tick
| PassSettled (k : nat) (fetch : nat → Outcome JobStatus.t)
| TimeoutFired (now : Z).

Definition setUploadQueue (f : list Item → list Item) (app : App) : App :=
  {| uploadQueue := f (uploadQueue app);
     passes := passes app;
     documentFetches := documentFetches app;
     timeouts := timeouts app |}.

(** Applies the effects of a settled pass to the component. *)
Definition perform (e : Effect) (app : App) : App :=
  match e with
  | SetUploadQueue queue => setUploadQueue (λ _, queue) app
  | FetchDocuments =>
      {| uploadQueue := uploadQueue app;
         passes := passes app;
         documentFetches := S (documentFetches app);
         timeouts := timeouts app |}
  | SetTimeout _ =>
      {| uploadQueue := uploadQueue app;
         passes := passes app;
         documentFetches := documentFetches app;
         timeouts := S (timeouts app) |}
  end.

Definition step (app : App) (ev : Event) : App :=
  match ev with
  | Upload now name => setUploadQueue (enqueue now name) app
  | UploadResolved uid job_id document_id =>
      setUploadQueue (uploadResolved uid job_id document_id) app
  | UploadRejected uid detail errorMessage =>
      setUploadQueue (uploadRejected uid detail errorMessage) app
  | Tick =>
      (* the interval exists only while [uploadQueue.length !== 0]; its
         callback calls [checkUploadStatuses()] unconditionally, which maps
         over the queue and suspends at [await Promise.all] *)
      match uploadQueue app with
      | [] => app
      | _ => {| uploadQueue := uploadQueue app;
                passes := passes app ++ [uploadQueue app];
                documentFetches := documentFetches app;
                timeouts := timeouts app |}
      end
  | PassSettled k fetch =>
      match passes app !! k with
      | Some snapshot =>
          foldl (λ a e, perform e a)
            {| uploadQueue := uploadQueue app;
               passes := delete k (passes app);
               documentFetches := documentFetches app;
               timeouts := timeouts app |}
            (checkUploadStatuses fetch snapshot)
      | None => app
      end
  | TimeoutFired now =>
      match timeouts app with
      | O => app
      | S n =>
          {| uploadQueue := sweep now (uploadQueue app);
             passes := passes app;
             documentFetches := documentFetches app;
             timeouts := n |}
      end
  end.

Definition run (events : list Event) : App := foldl step initial events.

(** ** The state machine of section 4.3 of the specification, used to state
    the claims about status order *)



Definition terminal (s : string) : Prop := s = "completed" ∨ s = "failed".

(** ** Invariants *)

(** An item that carries no [completedAt]. *)
Definition unstamped (item : Item) : Prop := completedAt item = None.

(** An effect that writes no item carrying a [completedAt]. *)
Definition effectUnstamped (e : Effect) : Prop :=
  match e with
  | SetUploadQueue queue => Forall unstamped queue
  | _ => True
  end.

(** Invariant of the machine: neither the queue nor any snapshot held by a
    pass contains an item that carries a [completedAt]. *)
Definition noStamps (app : App) : Prop :=
  Forall unstamped (uploadQueue app) ∧ Forall (Forall unstamped) (passes app).

(** An item whose [documentId], if it has one, was delivered by a resolved
    upload request for the id of the item. *)
Definition fromResponse (events : list Event) (item : Item) : Prop :=
  ∀ d, documentId item = Some d →
       ∃ job_id, UploadResolved (id item) job_id (Some d) ∈ events.

(** ** Sample items, answers and runs *)

(** A completed item carrying [completedAt = 0], as the specification
    describes completed entries. *)
Definition completedAtZero : Item :=
  {| id := "0"; filename := "report.pdf"; status := "completed";
     progress := 100; jobId := Some "J1"; documentId := Some "D1";
     message := Some ""; completedAt := Some 0 |}.

(** An item in [processing] that carries a message from an earlier poll. *)
Definition processingItem : Item :=
  {| id := "1000"; filename := "report.pdf"; status := "processing";
     progress := 40; jobId := Some "J1"; documentId := Some "D1";
     message := Some "Extracting text"; completedAt := None |}.

(** An answer of the status endpoint that reports [queued]. *)
Definition backToQueued : JobStatus.t :=
  JobStatus.mk "queued" (Some 0) None.

(** An answer of the status endpoint without a [result]. *)
Definition noMessage : JobStatus.t :=
  JobStatus.mk "processing" (Some 60) None.

(** A job that the status endpoint reports as completed on the first poll. *)
Definition completesAtOnce : list Event :=
  [ Upload 1000 "report.pdf";
    UploadResolved "1000" (Some "J1") (Some "D1");
    Tick;
    PassSettled 0 (λ _, Resolved (JobStatus.mk "completed" (Some 100) None)) ].

(** Two files chosen in one selection: [handleChange] calls [onUpload] for
    each of them in the same loop, hence within the same millisecond. *)
Definition twoFilesAtOnce : list Event :=
  [ Upload 1000 "a.pdf"; Upload 1000 "b.pdf" ].

(** An upload whose request resolves while a pass, started before, is still
    waiting for the status request of the item. *)
Definition responseDuringPass : list Event :=
  [ Upload 1000 "report.pdf";
    Tick;
    UploadResolved "1000" (Some "J1") (Some "D1") ].

(** An upload whose request is rejected while a pass is waiting. *)
Definition rejectionDuringPass : list Event :=
  [ Upload 1000 "bad.exe";
    Tick;
    UploadRejected "1000" (Some "unsupported type") "Request failed" ].

(** A second upload made while a pass is waiting. *)
Definition uploadDuringPass : list Event :=
  [ Upload 1000 "a.pdf";
    Tick;
    Upload 2000 "b.pdf" ].


Definition reportsCompleted : JobStatus.t :=
  JobStatus.mk "completed" (Some 100) None.



(** The scenario of the specification up to the answer of the intake
    endpoint. *)
Definition uploadAccepted : list Event :=
  [ Upload 1000 "report.pdf";
    UploadResolved "1000" (Some "J1") (Some "D1") ].

(** ** Counting events *)

Definition isUpload (ev : Event) : bool :=
  match ev with Upload _ _ => true | _ => false end.

Definition isPassSettled (ev : Event) : bool :=
  match ev with PassSettled _ _ => true | _ => false end.

(** Events that neither start nor settle a pass: calls of [handleUpload],
    settlements of its request and firings of the removal timeout. *)
Definition besidePasses (ev : Event) : bool :=
  match ev with
  | Tick | PassSettled _ _ => false
  | _ => true
  end.

(** Number of calls of [handleUpload] among the events. *)
Definition uploads (events : list Event) : nat :=
  length (List.filter isUpload events).

(** Number of settled passes among the events. *)
Definition settledPasses (events : list Event) : nat :=
  length (List.filter isPassSettled events).

(** The queue built by calling [handleUpload] once per element, each call
    with the clock value it reads and the name of its file. *)
Definition uploadAll (calls : list (Z * string)) (prev : list Item) : list Item :=
  foldl (λ queue call, enqueue call.1 call.2 queue) prev calls.

(** ** [UploadQueue] *)

(** [getStatusColor]: a [switch] on the status with a [default] branch. *)
Definition getStatusColor (status : string) : string :=
  if bool_decide (status = "uploading") then "#2563EB"
  else if bool_decide (status = "queued") then "#F59E0B"
  else if bool_decide (status = "processing") then "#8B5CF6"
  else if bool_decide (status = "completed") then "#10B981"
  else if bool_decide (status = "failed") then "#EF4444"
  else "#6B7280".

(** [getStatusIcon] *)
Definition getStatusIcon (status : string) : string :=
  if bool_decide (status = "uploading") then "⬆️"
  else if bool_decide (status = "queued") then "⏳"
  else if bool_decide (status = "processing") then "⚙️"
  else if bool_decide (status = "completed") then "✓"
  else if bool_decide (status = "failed") then "✗"
  else "•".

(** The statuses the two switches have a case for. *)
Definition knownStatuses : list string :=
  ["uploading"; "queued"; "processing"; "completed"; "failed"].

(** [{cond && text}] inside JSX: nothing is rendered for [false]. *)
Definition rendered (cond : bool) (text : string) : string :=
  if cond then text else "".

(** [`${x}`] for a string or [undefined]. *)
Definition templateUndefined (x : option string) : string :=
  default "undefined" x.

(** The text of the [item-status] element: its five conditional children,
    one after the other. *)
Definition statusText (item : Item) : string :=
  rendered (bool_decide (status item = "uploading")) "Uploading..."
  +:+ rendered (bool_decide (status item = "queued")) "Queued for processing"
  +:+ rendered (bool_decide (status item = "processing"))
        ("Processing... " +:+ pretty (progress item) +:+ "%")
  +:+ rendered (bool_decide (status item = "completed")) "Completed ✓"
  +:+ rendered (bool_decide (status item = "failed"))
        ("Failed: " +:+ templateUndefined (message item)).

(** [(item.status === 'processing' || item.status === 'uploading') && ...]:
    whether the progress bar is rendered. *)
Definition showsProgressBar (item : Item) : bool :=
  bool_decide (status item = "processing") || bool_decide (status item = "uploading").

(** ** [UploadArea] *)

(** The calls of [onUpload] made by [handleDrop]: only
    [e.dataTransfer.files[0]], and with one argument. *)
Definition handleDrop (files : list string) : list (string * option bool) :=
  match files with
  | file :: _ => [(file, None)]
  | [] => []
  end.

(** The calls of [onUpload] made by [handleChange]: every selected file,
    with the [useGPU] flag as second argument. *)
Definition handleChange (useGPU : bool) (files : list string)
    : list (string * option bool) :=
  if bool_decide (0 < length files)%nat
  then (λ file, (file, Some useGPU)) <$> files
  else [].

(** ** [DocumentList] *)

(** The tag row of a card: [doc.tags.slice(0, 3)] and, when there are more
    than three tags, the number shown after [+]; nothing at all when [tags]
    is absent or empty. *)
Definition tagChips (tags : option (list string)) : option (list string * option Z) :=
  match tags with
  | Some l =>
      if bool_decide (0 < length l)%nat
      then Some (take 3 l,
                 if bool_decide (3 < length l)%nat
                 then Some (Z.of_nat (length l) - 3)
                 else None)
      else None
  | None => None
  end.

(** ** Detail drawer of [App] *)

Section Detail.
Context {D : Type}.

(** The [selectedDoc] and [showDetail] states. *)
Record Detail := mkDetail {
  selectedDoc : option D;
  showDetail : bool;
}.

Inductive DetailEvent :=
| DocumentClicked (response : Outcome (option D))
| DetailClosed.

(** [handleDocumentClick] once its request has settled, and [closeDetail]. *)
Definition detailStep (st : Detail) (ev : DetailEvent) : Detail :=
  match ev with
  | DocumentClicked (Resolved data) => {| selectedDoc := data; showDetail := true |}
  | DocumentClicked Rejected => st
  | DetailClosed => {| selectedDoc := None; showDetail := false |}
  end.

(** [showDetail && selectedDoc]: whether [DocumentDetail] is rendered. *)
Definition drawerShown (st : Detail) : bool :=
  showDetail st && bool_decide (is_Some (selectedDoc st)).

Definition detailInitial : Detail :=
  {| selectedDoc := None; showDetail := false |}.

End Detail.
Arguments Detail : clear implicits.
Arguments DetailEvent : clear implicits.

(** ** Basic facts *)

Lemma isFinished_terminal item : isFinished item = true ↔ terminal (status item).
Proof.
  unfold isFinished, terminal.
  rewrite orb_true_iff, !bool_decide_eq_true. done.
Qed.


Lemma pollItem_finished outcome item :
  isFinished item = true → pollItem outcome item = item.
Proof. unfold pollItem. by intros ->. Qed.

Lemma pollItem_rejected item : pollItem Rejected item = item.
Proof. unfold pollItem. by destruct (isFinished item). Qed.

Lemma updatedQueue_lookup fetch q idx :
  updatedQueue fetch q !! idx = pollItem (fetch idx) <$> q !! idx.
Proof. unfold updatedQueue. by rewrite list_lookup_imap. Qed.

Lemma updatedQueue_length fetch q :
  length (updatedQueue fetch q) = length q.
Proof. unfold updatedQueue. apply length_imap. Qed.

(** A pass relates the items of its snapshot and of its result position by
    position. *)
Lemma updatedQueue_Forall2 (P : Item → Item → Prop) fetch q :
  (∀ outcome item, P item (pollItem outcome item)) →
  Forall2 P q (updatedQueue fetch q).
Proof.
  intros HP. apply Forall2_same_length_lookup. split.
  - by rewrite updatedQueue_length.
  - intros idx old new Hold. rewrite updatedQueue_lookup, Hold. simpl.
    intros [= <-]. apply HP.
Qed.

(** ** Retention sweeper *)

Lemma sweepKeeps_false now item :
  sweepKeeps now item = false ↔
  status item = "completed" ∧ ∃ t, completedAt item = Some t ∧ now - t > 5000.
Proof.
  unfold sweepKeeps, Js.gt, Js.sub.
  rewrite negb_false_iff, andb_true_iff, bool_decide_eq_true.
  destruct (completedAt item) as [t|]; simpl.
  - rewrite Z.gtb_gt. split.
    + intros [? ?]. eauto.
    + intros [? (t' & [= <-] & ?)]. done.
  - split; [intros [_ [=]] | intros [_ (t & [=] & _)]].
Qed.

Lemma elem_of_sweep now q item :
  item ∈ sweep now q ↔ item ∈ q ∧ sweepKeeps now item = true.
Proof. unfold sweep. rewrite !list_elem_of_In. apply filter_In. Qed.

Lemma sweep_keeps_unfinished now q item :
  item ∈ q → status item ≠ "completed" → item ∈ sweep now q.
Proof.
  intros Hin Hst. apply elem_of_sweep. split; [done|].
  destruct (sweepKeeps now item) eqn:E; [done|].
  apply sweepKeeps_false in E as [? _]. done.
Qed.

(** The removal filter, on any queue: it removes an item if and only if the
    status of the item is completed and the item carries a [completedAt]
    with [now - completedAt > 5000] (an item without one gives [NaN] and is
    kept); in particular an item whose status is failed is never removed. *)
Theorem sweep_removes_iff now (q : list Item) (item : Item) :
  ((item ∈ q ∧ item ∉ sweep now q) ↔
   (item ∈ q ∧ status item = "completed"
    ∧ ∃ t, completedAt item = Some t ∧ now - t > 5000))
  ∧ (item ∈ q ∧ status item = "failed" → item ∈ sweep now q).
Proof.
  split.
  - rewrite elem_of_sweep, <- sweepKeeps_false.
    destruct (sweepKeeps now item); split.
    + intros [Hin Hout]. destruct Hout. by split.
    + intros [_ [=]].
    + intros [Hin Hout]. done.
    + intros [Hin _]. split; [done|]. intros [_ [=]].
  - intros [Hin Hst]. apply sweep_keeps_unfinished; [done|].
    rewrite Hst. discriminate.
Qed.

(** ** [completedAt] *)

Lemma pollItem_completedAt outcome item :
  completedAt (pollItem outcome item) = completedAt item.
Proof.
  unfold pollItem. destruct (isFinished item); [done|]. by destruct outcome.
Qed.

Lemma updatedQueue_unstamped fetch q :
  Forall unstamped q → Forall unstamped (updatedQueue fetch q).
Proof.
  intros Hq. apply Forall_lookup. intros idx new.
  rewrite updatedQueue_lookup. destruct (q !! idx) as [old|] eqn:E; [|done].
  simpl. intros [= <-]. unfold unstamped. rewrite pollItem_completedAt.
  by apply (Forall_lookup_1 _ _ _ _ Hq E).
Qed.

Lemma sweep_unstamped now q :
  Forall unstamped q → Forall unstamped (sweep now q).
Proof.
  rewrite !Forall_forall. intros Hq item Hin.
  apply elem_of_sweep in Hin as [Hin _]. by apply Hq.
Qed.

Lemma sweep_of_unstamped now q : Forall unstamped q → sweep now q = q.
Proof.
  unfold sweep. induction 1 as [|item q Hitem _ IH]; [done|]. simpl.
  unfold sweepKeeps at 1. rewrite Hitem. simpl.
  rewrite andb_false_r. simpl. by rewrite IH.
Qed.

Lemma uploadResolved_unstamped uid j d q :
  Forall unstamped q → Forall unstamped (uploadResolved uid j d q).
Proof.
  unfold uploadResolved. intros Hq. apply Forall_fmap.
  eapply Forall_impl; [exact Hq|]. intros item Hitem. simpl.
  by case_bool_decide.
Qed.

Lemma uploadRejected_unstamped uid detail msg q :
  Forall unstamped q → Forall unstamped (uploadRejected uid detail msg q).
Proof.
  unfold uploadRejected. intros Hq. apply Forall_fmap.
  eapply Forall_impl; [exact Hq|]. intros item Hitem. simpl.
  by case_bool_decide.
Qed.

Lemma setUploadQueue_noStamps f app :
  Forall unstamped (f (uploadQueue app)) → noStamps app →
  noStamps (setUploadQueue f app).
Proof. intros Hf [_ Hp]. split; simpl; [exact Hf | exact Hp]. Qed.

Lemma perform_noStamps e app :
  effectUnstamped e → noStamps app → noStamps (perform e app).
Proof.
  intros He [Hq Hp]. destruct e; simpl.
  - by apply setUploadQueue_noStamps.
  - by split.
  - by split.
Qed.

Lemma performAll_noStamps effects app :
  Forall effectUnstamped effects → noStamps app →
  noStamps (foldl (λ a e, perform e a) app effects).
Proof.
  intros He. revert app.
  induction He as [|e effects He _ IH]; intros app Happ; [done|].
  simpl. apply IH. by apply perform_noStamps.
Qed.

Lemma checkUploadStatuses_unstamped fetch q :
  Forall unstamped q → Forall effectUnstamped (checkUploadStatuses fetch q).
Proof.
  intros Hq. unfold checkUploadStatuses. repeat apply Forall_app_2.
  - apply Forall_singleton. by apply updatedQueue_unstamped.
  - destruct (hasCompleted _ _); by repeat constructor.
  - by repeat constructor.
Qed.

Lemma step_noStamps app ev : noStamps app → noStamps (step app ev).
Proof.
  intros Happ. pose proof Happ as [Hq Hp].
  destruct ev as [now name|uid j d|uid detail msg| |k fetch|now]; cbn [step].
  - apply setUploadQueue_noStamps; [|done]. unfold enqueue.
    apply Forall_app. split; [done|]. apply Forall_singleton. reflexivity.
  - apply setUploadQueue_noStamps; [|done]. by apply uploadResolved_unstamped.
  - apply setUploadQueue_noStamps; [|done]. by apply uploadRejected_unstamped.
  - destruct (uploadQueue app) as [|item q]; [done|].
    split; simpl; [done|]. apply Forall_app. split; [done|].
    by apply Forall_singleton.
  - destruct (passes app !! k) as [snapshot|] eqn:E; [|done].
    assert (Forall unstamped snapshot) as Hs
      by apply (Forall_lookup_1 _ _ _ _ Hp E).
    assert (Forall (Forall unstamped) (delete k (passes app))) as Hd.
    { apply Forall_forall. intros s Hin.
      rewrite Forall_forall in Hp. apply Hp.
      eapply list_subseteq_delete, Hin. }
    apply performAll_noStamps; [by apply checkUploadStatuses_unstamped|].
    by split.
  - destruct (timeouts app); [done|]. split; simpl; [|done].
    by apply sweep_unstamped.
Qed.

Lemma run_noStamps events : noStamps (run events).
Proof.
  unfold run. induction events as [|ev events IH] using rev_ind.
  - split; constructor.
  - rewrite foldl_app. simpl. by apply step_noStamps.
Qed.

(** No sequence of events ever produces an item with a [completedAt], so
    the removal timeout never removes anything. *)
Lemma completedAt_never_set events :
  Forall unstamped (uploadQueue (run events))
  ∧ ∀ now, sweep now (uploadQueue (run events)) = uploadQueue (run events).
Proof.
  destruct (run_noStamps events) as [Hq _]. split; [done|].
  intros now. by apply sweep_of_unstamped.
Qed.

(** C1 (code defect): a completed item is never removed.  After the pass
    that observed completed the removal timeout is scheduled, but whenever it
    fires, however long after the completion, the filter keeps the completed
    item: the item carries no [completedAt], so the test of the filter is
    [NaN > 5000]. *)
Theorem completed_item_is_never_removed :
  (status <$> uploadQueue (run completesAtOnce)) = ["completed"]
  ∧ timeouts (run completesAtOnce) = 1%nat
  ∧ ∀ now,
      uploadQueue (step (run completesAtOnce) (TimeoutFired now))
      = uploadQueue (run completesAtOnce).
Proof.
  split; [by vm_compute|]. split; [by vm_compute|]. intros now.
  destruct (run_noStamps completesAtOnce) as [Hq _].
  cbn [step]. replace (timeouts (run completesAtOnce)) with 1%nat by (by vm_compute).
  cbn [uploadQueue]. by apply sweep_of_unstamped.
Qed.

(** C2 (code defect): in the pass that first observes completed the item
    becomes completed and the document list is refreshed, but no
    [completedAt] is recorded; the removal timeout fired long afterwards
    therefore keeps the item. *)
Theorem completedAt_missing_after_completion :
  let app := run completesAtOnce in
  (status <$> uploadQueue app) = ["completed"]
  ∧ (completedAt <$> uploadQueue app) = [None]
  ∧ documentFetches app = 1%nat
  ∧ uploadQueue (step app (TimeoutFired 1000000)) = uploadQueue app.
Proof. vm_compute. done. Qed.

(** ** Poll scheduler *)

Lemma tick_on_items app :
  uploadQueue app ≠ [] →
  uploadQueue (step app Tick) = uploadQueue app
  ∧ passes (step app Tick) = passes app ++ [uploadQueue app].
Proof.
  intros Hne. cbn [step]. by destruct (uploadQueue app).
Qed.

(** C3, as stated, fails: passes overlap.  With one upload in the queue and a
    status request that has not settled when the interval fires again, two
    passes are in flight at once. *)
Lemma two_ticks_two_passes_in_flight :
  length (passes (run [Upload 1000 "report.pdf"; Tick; Tick])) = 2%nat.
Proof. reflexivity. Qed.

(** C3 (amended): while the queue is not empty every firing of the interval
    starts exactly one pass over the current queue, whether or not earlier
    passes are still in flight; no firing is skipped, so [n] firings with no
    pass settled in between add [n] passes in flight. *)
Theorem every_tick_starts_a_pass app (n : nat) :
  uploadQueue app ≠ [] →
  uploadQueue (foldl step app (replicate n Tick)) = uploadQueue app
  ∧ passes (foldl step app (replicate n Tick))
    = passes app ++ replicate n (uploadQueue app).
Proof.
  intros Hne. revert app Hne. induction n as [|n IH]; intros app Hne.
  - simpl. by rewrite app_nil_r.
  - destruct (tick_on_items app Hne) as [Hq Hp].
    rewrite replicate_S. cbn [foldl].
    destruct (IH (step app Tick)) as [IHq IHp]; [by rewrite Hq|].
    rewrite IHq, IHp, Hq, Hp, <- app_assoc. done.
Qed.

Lemma every_tick_starts_a_pass_witness :
  uploadQueue (run [Upload 1000 "report.pdf"]) ≠ []
  ∧ passes (foldl step (run [Upload 1000 "report.pdf"]) (replicate 3 Tick))
    = replicate 3 [newItem 1000 "report.pdf"].
Proof.
  assert (uploadQueue (run [Upload 1000 "report.pdf"]) ≠ []) as Hne
    by (vm_compute; discriminate).
  split; [exact Hne|].
  exact (proj2 (every_tick_starts_a_pass _ 3 Hne)).
Defined.

(** ** Submission *)

Lemma uploadId_inj now1 now2 : uploadId now1 = uploadId now2 ↔ now1 = now2.
Proof.
  unfold uploadId. split; [|by intros ->]. apply (inj pretty).
Qed.

(** Each call of [handleUpload] appends exactly one item, and the ids of two
    new items differ exactly when the calls read different clock values. *)
Lemma enqueue_one_item now name prev :
  enqueue now name prev = prev ++ [newItem now name]
  ∧ length (enqueue now name prev) = S (length prev)
  ∧ ∀ now' name', id (newItem now name) = id (newItem now' name') ↔ now = now'.
Proof.
  split; [done|]. split.
  - unfold enqueue. rewrite length_app. simpl. lia.
  - intros now' name'. apply uploadId_inj.
Qed.

(** C4 (code defect): both items get the id ["1000"], and the response for
    the first upload is then merged into both of them. *)
Theorem same_millisecond_same_id :
  let app := run twoFilesAtOnce in
  (filename <$> uploadQueue app) = ["a.pdf"; "b.pdf"]
  ∧ (id <$> uploadQueue app) = ["1000"; "1000"]
  ∧ (jobId <$> uploadQueue
       (step app (UploadResolved "1000" (Some "J1") (Some "D1"))))
    = [Some "J1"; Some "J1"].
Proof. vm_compute. done. Qed.

(** ** Refresh signal *)

Lemma hasCompleted_spec fetch (q : list Item) :
  hasCompleted (updatedQueue fetch q) q = true ↔
  ∃ idx old new,
    q !! idx = Some old ∧ updatedQueue fetch q !! idx = Some new
    ∧ status new = "completed" ∧ status old ≠ "completed".
Proof.
  unfold hasCompleted. rewrite existsb_exists. split.
  - intros (b & Hin & ->). apply list_elem_of_In, elem_of_lookup_imap in Hin.
    destruct Hin as (idx & new & Hb & Hnew). symmetry in Hb.
    apply andb_true_iff in Hb as [Hc Hold].
    apply bool_decide_eq_true in Hc.
    apply negb_true_iff, bool_decide_eq_false in Hold.
    pose proof Hnew as Hnew'. rewrite updatedQueue_lookup in Hnew'.
    destruct (q !! idx) as [old|] eqn:E; [|done].
    exists idx, old, new. repeat split; try done.
    intros Hst. apply Hold. simpl. by rewrite Hst.
  - intros (idx & old & new & Hold & Hnew & Hc & Hnc).
    exists true. split; [|done]. apply list_elem_of_In, elem_of_lookup_imap.
    exists idx, new. split; [|done]. symmetry. apply andb_true_iff. split.
    + by apply bool_decide_eq_true.
    + apply negb_true_iff, bool_decide_eq_false. rewrite Hold. simpl.
      intros [= Hst]. done.
Qed.

Lemma refreshSignals_pass fetch q :
  refreshSignals (checkUploadStatuses fetch q)
  = if hasCompleted (updatedQueue fetch q) q then 1%nat else 0%nat.
Proof.
  unfold checkUploadStatuses, refreshSignals.
  by destruct (hasCompleted _ _).
Qed.

Lemma performAll_documentFetches effects app :
  documentFetches (foldl (λ a e, perform e a) app effects)
  = (documentFetches app + refreshSignals effects)%nat.
Proof.
  revert app. induction effects as [|e effects IH]; intros app.
  - unfold refreshSignals. simpl. lia.
  - cbn [foldl]. rewrite IH. unfold refreshSignals.
    destruct e; simpl; lia.
Qed.

(** C6: a pass calls [fetchDocuments] at most once, and it calls it exactly
    when some position holds a completed item after the pass whose item
    before the pass was not completed; the component's count of refreshes
    grows by that number when the pass settles. *)
Theorem refresh_once_iff_fresh_completion fetch (q : list Item) :
  (refreshSignals (checkUploadStatuses fetch q) ≤ 1)%nat
  ∧ (refreshSignals (checkUploadStatuses fetch q) = 1%nat ↔
     ∃ idx old new,
       q !! idx = Some old ∧ updatedQueue fetch q !! idx = Some new
       ∧ status new = "completed" ∧ status old ≠ "completed")
  ∧ (∀ app k,
       passes app !! k = Some q →
       documentFetches (step app (PassSettled k fetch))
       = (documentFetches app + refreshSignals (checkUploadStatuses fetch q))%nat).
Proof.
  rewrite refreshSignals_pass, <- hasCompleted_spec. split; [|split].
  - destruct (hasCompleted _ _); lia.
  - by destruct (hasCompleted _ _).
  - intros app k Hk. cbn [step]. rewrite Hk.
    by rewrite performAll_documentFetches, refreshSignals_pass.
Qed.

(** ** Failed status requests *)

Lemma elem_of_requests (q : list Item) idx url :
  (idx, url) ∈ requests q ↔
  ∃ item, q !! idx = Some item ∧ isFinished item = false ∧ url = statusUrl item.
Proof.
  unfold requests. rewrite list_elem_of_omap. split.
  - intros ([i item] & Hin & Hsome). apply elem_of_lookup_imap in Hin.
    destruct Hin as (j & item' & [= -> ->] & Hj). simpl in Hsome.
    destruct (isFinished item') eqn:E; [done|].
    injection Hsome as <- <-. eauto.
  - intros (item & Hq & Hfin & ->). exists (idx, item). split.
    + apply elem_of_lookup_imap. eauto.
    + simpl. by rewrite Hfin.
Qed.

(** Relative to the queue a pass read: when the request for an item is
    rejected the pass computes that item as it was; what it computes at any
    other position does not depend on the outcome at this one; and a pass
    over the computed queue requests the item again, also after the removal
    filter has run on it. *)
Lemma rejected_request_is_local fetch (q : list Item) idx item :
  q !! idx = Some item → isFinished item = false → fetch idx = Rejected →
  updatedQueue fetch q !! idx = Some item
  ∧ length (updatedQueue fetch q) = length q
  ∧ (∀ fetch' j,
       j ≠ idx → fetch' j = fetch j →
       updatedQueue fetch' q !! j = updatedQueue fetch q !! j)
  ∧ (idx, statusUrl item) ∈ requests (updatedQueue fetch q)
  ∧ (∀ now, ∃ idx',
       (idx', statusUrl item) ∈ requests (sweep now (updatedQueue fetch q))).
Proof.
  intros Hq Hfin Hrej.
  assert (updatedQueue fetch q !! idx = Some item) as Hkept.
  { rewrite updatedQueue_lookup, Hq, Hrej. simpl. by rewrite pollItem_rejected. }
  split; [done|]. split; [apply updatedQueue_length|]. split; [|split].
  - intros fetch' j _ Hsame. by rewrite !updatedQueue_lookup, Hsame.
  - apply elem_of_requests. eauto.
  - intros now.
    assert (item ∈ sweep now (updatedQueue fetch q)) as Hin.
    { apply sweep_keeps_unfinished; [by eapply list_elem_of_lookup_2|].
      intros Hst. unfold isFinished in Hfin. rewrite Hst in Hfin. done. }
    apply list_elem_of_lookup_1 in Hin as [idx' Hidx'].
    exists idx'. apply elem_of_requests. eauto.
Qed.

Lemma rejected_request_is_local_witness :
  updatedQueue (λ idx, match idx with
                       | O => Rejected
                       | _ => Resolved backToQueued
                       end)
    [processingItem; processingItem] !! 0%nat
  = Some processingItem.
Proof.
  apply (rejected_request_is_local _ [processingItem; processingItem] 0
           processingItem); reflexivity.
Defined.

(** ** Merge of a fetched status *)

Lemma orNum_zero x : Js.orNum x 0 = default 0 x.
Proof.
  unfold Js.orNum. destruct x as [v|]; [|done]. simpl.
  destruct (Z.eqb_spec v 0); by subst.
Qed.

Lemma orStr_empty x : Js.orStr x "" = default "" x.
Proof.
  unfold Js.orStr. destruct x as [s|]; [|done]. simpl.
  case_bool_decide; by subst.
Qed.

(** C8, as stated, fails: the answer carries no message, yet the message the
    item had before the merge is replaced (by the empty string). *)
Lemma merge_drops_prior_message :
  isFinished processingItem = false
  ∧ JobStatus.result noMessage ≫= JobStatus.message = None
  ∧ message processingItem = Some "Extracting text"
  ∧ message (pollItem (Resolved noMessage) processingItem) = Some "".
Proof. repeat split. Qed.

(** C8 (amended): for an item that is not finished and whose request
    resolves, the merge overwrites status with the fetched status, progress
    with the fetched progress (0 when the answer has none) and message with
    the message of the answer's result (the empty string when the answer has
    none); every other field is kept. *)
Theorem merge_overwrites item (jobStatus : JobStatus.t) :
  isFinished item = false →
  pollItem (Resolved jobStatus) item
  = {| id := id item;
       filename := filename item;
       status := JobStatus.status jobStatus;
       progress := default 0 (JobStatus.progress jobStatus);
       jobId := jobId item;
       documentId := documentId item;
       message :=
         Some (default "" (JobStatus.result jobStatus ≫= JobStatus.message));
       completedAt := completedAt item |}.
Proof.
  intros Hfin. unfold pollItem. rewrite Hfin.
  by rewrite orNum_zero, orStr_empty.
Qed.

Lemma merge_overwrites_witness :
  isFinished processingItem = false
  ∧ message (pollItem (Resolved noMessage) processingItem) = Some ""
  ∧ progress (pollItem (Resolved noMessage) processingItem) = 60.
Proof.
  assert (isFinished processingItem = false) as Hfin by reflexivity.
  split; [exact Hfin|].
  rewrite (merge_overwrites processingItem noMessage Hfin). split; reflexivity.
Defined.

(** ** [documentId] *)

(** C9, as stated, fails: once the upload request has resolved the item is
    queued, not completed, and already carries the document id. *)
Lemma documentId_set_when_queued :
  (status <$> uploadQueue (run uploadAccepted)) = ["queued"]
  ∧ (documentId <$> uploadQueue (run uploadAccepted)) = [Some "D1"].
Proof. vm_compute. done. Qed.

Lemma pollItem_frame outcome item :
  id (pollItem outcome item) = id item
  ∧ filename (pollItem outcome item) = filename item
  ∧ jobId (pollItem outcome item) = jobId item
  ∧ documentId (pollItem outcome item) = documentId item.
Proof.
  unfold pollItem. destruct (isFinished item); [done|]. by destruct outcome.
Qed.

(** ** Frame of a reconciliation pass *)

(** Relative to the queue a pass read: position by position, the queue it
    computes has the [id], [filename], [jobId] and [documentId] of the items
    read, and every item read as completed or failed unchanged. *)
Lemma pass_frame fetch (q : list Item) :
  Forall2 (λ old new,
             id new = id old
             ∧ filename new = filename old
             ∧ jobId new = jobId old
             ∧ documentId new = documentId old
             ∧ (terminal (status old) → new = old))
          q (updatedQueue fetch q).
Proof.
  apply updatedQueue_Forall2. intros outcome item.
  destruct (pollItem_frame outcome item) as (? & ? & ? & ?).
  repeat split; try done.
  intros Hterm. apply pollItem_finished. by apply isFinished_terminal.
Qed.

(** ** Further properties of the removal filter *)

Lemma sweepKeeps_earlier now1 now2 item :
  now1 <= now2 → sweepKeeps now2 item = true → sweepKeeps now1 item = true.
Proof.
  intros Hle Hkeep. destruct (sweepKeeps now1 item) eqn:E; [done|].
  apply sweepKeeps_false in E as (Hst & t & Ht & Hgt).
  assert (sweepKeeps now2 item = false) as Hrem.
  { apply sweepKeeps_false. split; [done|]. exists t. split; [done|]. lia. }
  congruence.
Qed.

Lemma filter_filter_implied {A} (f g : A → bool) (l : list A) :
  (∀ x, f x = true → g x = true) →
  List.filter f (List.filter g l) = List.filter f l.
Proof.
  intros Himp. induction l as [|x l IH]; [done|]. simpl.
  destruct (g x) eqn:Eg; simpl.
  - by rewrite IH.
  - destruct (f x) eqn:Ef; [|done]. apply Himp in Ef. congruence.
Qed.

Lemma sweep_sublist now q : sweep now q `sublist_of` q.
Proof.
  unfold sweep. induction q as [|item q IH]; [done|]. simpl.
  destruct (sweepKeeps now item); by constructor.
Qed.

(** A later run of the removal filter subsumes an earlier one: whatever was
    removable stays removable, so filtering at [now1] and then at a later
    [now2] gives the same queue as filtering once at [now2]. *)
Theorem sweep_later_subsumes now1 now2 (q : list Item) :
  now1 <= now2 →
  sweep now2 (sweep now1 q) = sweep now2 q
  ∧ sweep now2 q `sublist_of` sweep now1 q.
Proof.
  intros Hle.
  assert (sweep now2 (sweep now1 q) = sweep now2 q) as Heq.
  { unfold sweep. apply filter_filter_implied.
    intros item. by apply sweepKeeps_earlier. }
  split; [done|]. rewrite <- Heq. apply sweep_sublist.
Qed.

Lemma sweep_later_subsumes_witness :
  sweep 7000 (sweep 5000 [completedAtZero; processingItem]) = [processingItem].
Proof.
  rewrite (proj1 (sweep_later_subsumes 5000 7000
                    [completedAtZero; processingItem] ltac:(lia))).
  reflexivity.
Defined.

(** ** Passes that change nothing *)

Lemma pollItem_unchanged fetch (q : list Item) :
  (∀ idx item, q !! idx = Some item → pollItem (fetch idx) item = item) →
  updatedQueue fetch q = q.
Proof.
  intros Hsame. apply list_eq. intros idx. rewrite updatedQueue_lookup.
  destruct (q !! idx) as [item|] eqn:E; [|done]. simpl. by rewrite Hsame.
Qed.

Lemma hasCompleted_same (q : list Item) : hasCompleted q q = false.
Proof.
  unfold hasCompleted. apply not_true_is_false. rewrite existsb_exists.
  intros (b & Hin & ->). apply list_elem_of_In, elem_of_lookup_imap in Hin.
  destruct Hin as (idx & item & Hb & Hitem). symmetry in Hb.
  apply andb_true_iff in Hb as [Hc Hold].
  apply bool_decide_eq_true in Hc.
  apply negb_true_iff, bool_decide_eq_false in Hold.
  apply Hold. rewrite Hitem. simpl. by rewrite Hc.
Qed.

Lemma pass_without_answers fetch (q : list Item) :
  (∀ idx item, q !! idx = Some item → isFinished item = false →
               fetch idx = Rejected) →
  checkUploadStatuses fetch q = [SetUploadQueue q; SetTimeout 5000].
Proof.
  intros Hrej.
  assert (updatedQueue fetch q = q) as Hq.
  { apply pollItem_unchanged. intros idx item Hitem.
    destruct (isFinished item) eqn:E; [by apply pollItem_finished|].
    rewrite (Hrej idx item Hitem E). apply pollItem_rejected. }
  unfold checkUploadStatuses. rewrite Hq, hasCompleted_same. done.
Qed.

(** When the request of every unfinished item is rejected (the backend is
    unreachable), the pass writes back the queue it read, item for item, and
    does not refresh the document list; it still schedules the removal
    timeout, and the pass after it issues the same requests again. *)
Theorem pass_with_all_requests_rejected fetch (q : list Item) :
  (∀ idx item, q !! idx = Some item → isFinished item = false →
               fetch idx = Rejected) →
  checkUploadStatuses fetch q = [SetUploadQueue q; SetTimeout 5000]
  ∧ requests (updatedQueue fetch q) = requests q.
Proof.
  intros Hrej. pose proof (pass_without_answers fetch q Hrej) as Hpass.
  split; [done|]. unfold checkUploadStatuses in Hpass.
  by injection Hpass as ->.
Qed.

Lemma pass_with_all_requests_rejected_witness :
  checkUploadStatuses (λ _, Rejected) [completedAtZero; processingItem]
  = [SetUploadQueue [completedAtZero; processingItem]; SetTimeout 5000].
Proof.
  apply (pass_with_all_requests_rejected (λ _, Rejected)
           [completedAtZero; processingItem]).
  intros idx item _ _. reflexivity.
Defined.

Lemma requests_length (q : list Item) :
  length (requests q)
  = length (List.filter (λ item, negb (isFinished item)) q).
Proof.
  unfold requests.
  assert (∀ (g : nat → nat) (l : list Item),
            length (omap (λ p : nat * Item,
                            if isFinished p.2 then None
                            else Some (p.1, statusUrl p.2))
                         (imap (λ i x, (g i, x)) l))
            = length (List.filter (λ item, negb (isFinished item)) l)) as Hgen.
  { intros g l. revert g. induction l as [|item l IH]; intros g; [done|].
    rewrite imap_cons. specialize (IH (g ∘ S)).
    cbn [omap list_omap List.filter fst snd].
    destruct (isFinished item); simpl; [exact IH | f_equal; exact IH]. }
  apply (Hgen (λ i, i)).
Qed.

(** A pass issues exactly one request per unfinished item and none for the
    others; over a queue whose items are all completed or failed it issues
    no request at all and, whatever the backend would answer, writes the
    queue back unchanged without refreshing the document list. *)
Theorem requests_only_for_unfinished (q : list Item) :
  length (requests q) = length (List.filter (λ item, negb (isFinished item)) q)
  ∧ (Forall (λ item, isFinished item = true) q →
     requests q = []
     ∧ ∀ fetch, checkUploadStatuses fetch q = [SetUploadQueue q; SetTimeout 5000]).
Proof.
  split; [apply requests_length|]. intros Hfin. split.
  - apply length_zero_iff_nil. rewrite requests_length.
    induction Hfin as [|item q Hitem _ IH]; [done|]. simpl. by rewrite Hitem.
  - intros fetch. apply pass_without_answers.
    intros idx item Hitem Hunf.
    rewrite (Forall_lookup_1 _ _ _ _ Hfin Hitem) in Hunf. done.
Qed.

Lemma requests_only_for_unfinished_witness :
  requests [completedAtZero; completedAtZero] = [].
Proof.
  apply (proj2 (requests_only_for_unfinished [completedAtZero; completedAtZero])).
  repeat constructor.
Defined.

(** ** When polling of an item starts and stops *)

(** An item for which the status endpoint reported completed or failed is
    finished: every pass that reads a queue holding it issues no request for
    its position and, when it settles, writes it back to the queue unchanged,
    whatever the requests of that pass return. *)
Theorem terminal_answer_finishes_item item (jobStatus : JobStatus.t) :
  isFinished item = false → terminal (JobStatus.status jobStatus) →
  ∀ (q : list Item) idx,
    q !! idx = Some (pollItem (Resolved jobStatus) item) →
    (∀ url, (idx, url) ∉ requests q)
    ∧ (∀ app k fetch,
         passes app !! k = Some q →
         uploadQueue (step app (PassSettled k fetch)) !! idx
         = Some (pollItem (Resolved jobStatus) item)).
Proof.
  intros Hunf Hterm q idx Hq.
  set (finished := pollItem (Resolved jobStatus) item) in *.
  assert (isFinished finished = true) as Hfin.
  { apply isFinished_terminal. unfold finished, pollItem. by rewrite Hunf. }
  split.
  - intros url Hin. apply elem_of_requests in Hin as (item' & Hitem' & Hunf' & _).
    rewrite Hq in Hitem'. injection Hitem' as <-. congruence.
  - intros app k fetch Hk. cbn [step]. rewrite Hk.
    unfold checkUploadStatuses. destruct (hasCompleted _ _); simpl;
      rewrite updatedQueue_lookup, Hq; simpl; by rewrite pollItem_finished.
Qed.

Lemma terminal_answer_finishes_item_witness :
  (0%nat, "/api/ingest/job/J1/status") ∉
    requests [pollItem (Resolved reportsCompleted) processingItem].
Proof.
  apply (proj1 (terminal_answer_finishes_item processingItem reportsCompleted
                  eq_refl (or_introl eq_refl)
                  [pollItem (Resolved reportsCompleted) processingItem] 0
                  eq_refl)).
Defined.

(** An item is polled from the moment it is created: while its upload
    request is still pending it has no job id, and a pass requests the
    status of the job called [null] for it. *)
Theorem new_item_polled_without_job_id now name (prev : list Item) :
  (length prev, "/api/ingest/job/null/status") ∈ requests (enqueue now name prev).
Proof.
  apply elem_of_requests. exists (newItem now name). split; [|done].
  unfold enqueue. rewrite lookup_app_r by done.
  by rewrite Nat.sub_diag.
Qed.

(** ** Merges of the upload response *)

Lemma merge_missing_id (f : Item → Item) uid (prev : list Item) :
  Forall (λ item, id item ≠ uid) prev →
  (λ item, if bool_decide (id item = uid) then f item else item) <$> prev = prev.
Proof.
  induction 1 as [|item prev Hne _ IH]; [done|].
  rewrite fmap_cons, IH. by rewrite bool_decide_eq_false_2.
Qed.

(** When no item of the queue carries the id of the upload (the item was
    dropped in the meantime), both merges of [handleUpload] leave the queue
    as it is. *)
Theorem upload_merges_skip_missing_id uid (prev : list Item) :
  Forall (λ item, id item ≠ uid) prev →
  (∀ job_id document_id, uploadResolved uid job_id document_id prev = prev)
  ∧ (∀ detail errorMessage, uploadRejected uid detail errorMessage prev = prev).
Proof.
  intros Hne. split; intros; by apply merge_missing_id.
Qed.

Lemma upload_merges_skip_missing_id_witness :
  uploadResolved "2000" (Some "J2") (Some "D2") [processingItem] = [processingItem].
Proof.
  apply (upload_merges_skip_missing_id "2000" [processingItem]).
  repeat constructor. discriminate.
Defined.

(** A rejected upload request marks the items carrying its id as failed,
    with the detail of the error response as message, or the message of the
    error when there is no detail (or an empty one); such an item is never
    polled and never removed by the removal filter, and the other items are
    untouched. *)
Theorem rejected_upload_is_final uid detail errorMessage (prev : list Item) :
  Forall2 (λ old new,
             if decide (id old = uid)
             then status new = "failed"
                  ∧ message new
                    = Some (match detail with
                            | Some d => if decide (d = "") then errorMessage else d
                            | None => errorMessage
                            end)
                  ∧ isFinished new = true
                  ∧ (∀ outcome, pollItem outcome new = new)
                  ∧ (∀ now, sweepKeeps now new = true)
             else new = old)
          prev (uploadRejected uid detail errorMessage prev).
Proof.
  unfold uploadRejected.
  apply Forall2_fmap_r, Forall_Forall2_diag, Forall_forall.
  intros item _. simpl.
  destruct (decide (id item = uid)) as [Hid|Hid].
  - rewrite bool_decide_eq_true_2 by done. simpl. split; [done|]. split.
    { f_equal. unfold Js.orStr. destruct detail as [d|]; [|done].
      destruct (decide (d = "")) as [->|Hd]; [done|].
      by rewrite bool_decide_eq_false_2. }
    split; [done|]. split; [|done].
    intros outcome. by apply pollItem_finished.
  - by rewrite bool_decide_eq_false_2.
Qed.

(** ** Passes write back their snapshot *)

Lemma passSettled_queue app k fetch snapshot :
  passes app !! k = Some snapshot →
  uploadQueue (step app (PassSettled k fetch)) = updatedQueue fetch snapshot
  ∧ passes (step app (PassSettled k fetch)) = delete k (passes app)
  ∧ timeouts (step app (PassSettled k fetch)) = S (timeouts app).
Proof.
  intros Hk. cbn [step]. rewrite Hk. unfold checkUploadStatuses.
  by destruct (hasCompleted _ _).
Qed.

Lemma besidePasses_keep_passes app events :
  Forall (λ ev, besidePasses ev = true) events →
  passes (foldl step app events) = passes app.
Proof.
  intros Hevs. revert app.
  induction Hevs as [|ev events Hev _ IH]; intros app; [done|].
  cbn [foldl]. rewrite IH.
  destruct ev as [now name|uid j d|uid detail msg| |k fetch|now];
    try discriminate; cbn [step setUploadQueue passes]; try done.
  by destruct (timeouts app).
Qed.

(** A pass that settles replaces the whole queue by the result computed
    from the queue it read when it started.  Whatever happened to the queue
    while the pass was waiting for its requests (uploads added, upload
    responses merged, items removed by the timeout) is therefore lost: after
    the pass the queue is the pass's result on the queue it started with. *)
Theorem changes_during_pass_are_lost app between fetch :
  uploadQueue app ≠ [] →
  Forall (λ ev, besidePasses ev = true) between →
  let app' :=
    foldl step app
      ([Tick] ++ between ++ [PassSettled (length (passes app)) fetch]) in
  uploadQueue app' = updatedQueue fetch (uploadQueue app)
  ∧ length (uploadQueue app') = length (uploadQueue app)
  ∧ passes app' = passes app.
Proof.
  intros Hne Hbetween app'. destruct (tick_on_items app Hne) as [_ Hp].
  unfold app'. rewrite !foldl_app. cbn [foldl].
  set (app2 := foldl step (step app Tick) between).
  assert (passes app2 = passes app ++ [uploadQueue app]) as Hp2.
  { unfold app2. by rewrite besidePasses_keep_passes. }
  assert (passes app2 !! length (passes app) = Some (uploadQueue app)) as Hk.
  { rewrite Hp2, lookup_app_r by done. by rewrite Nat.sub_diag. }
  destruct (passSettled_queue app2 _ fetch _ Hk) as (Hq' & Hp' & _).
  rewrite Hq', Hp', Hp2. split; [done|]. split; [apply updatedQueue_length|].
  rewrite delete_middle. by rewrite app_nil_r.
Qed.

Lemma changes_during_pass_are_lost_witness :
  filename <$> uploadQueue
    (foldl step (run [Upload 1000 "a.pdf"])
       [Tick; Upload 2000 "b.pdf"; UploadResolved "1000" (Some "J1") (Some "D1");
        PassSettled 0 (λ _, Rejected)])
  = ["a.pdf"]
  ∧ jobId <$> uploadQueue
      (foldl step (run [Upload 1000 "a.pdf"])
         [Tick; Upload 2000 "b.pdf"; UploadResolved "1000" (Some "J1") (Some "D1");
          PassSettled 0 (λ _, Rejected)])
    = [None].
Proof.
  assert (uploadQueue (run [Upload 1000 "a.pdf"]) ≠ []) as Hne
    by (vm_compute; discriminate).
  assert (Forall (λ ev, besidePasses ev = true)
            [Upload 2000 "b.pdf"; UploadResolved "1000" (Some "J1") (Some "D1")])
    as Hbetween by (repeat constructor).
  pose proof (proj1 (changes_during_pass_are_lost (run [Upload 1000 "a.pdf"])
                       _ (λ _, Rejected) Hne Hbetween)) as Hq.
  split.
  - etransitivity; [exact (f_equal (fmap filename) Hq) | reflexivity].
  - etransitivity; [exact (f_equal (fmap jobId) Hq) | reflexivity].
Defined.

(** ** What a settled pass does to the registry *)




(** C7 (code defect): a rejected status request does not leave the entry of
    the registry as it was.  The upload request resolves while the pass is
    waiting, so the entry is queued with job id [J1]; the status request of
    the pass is then rejected, and the pass writes back the item it read at
    its start: the entry is [uploading] again, without job id, and the next
    pass asks for the status of the job called [null]. *)
Theorem rejected_poll_reverts_entry :
  let before := run responseDuringPass in
  let after := step before (PassSettled 0 (λ _, Rejected)) in
  (status <$> uploadQueue before) = ["queued"]
  ∧ (jobId <$> uploadQueue before) = [Some "J1"]
  ∧ (status <$> uploadQueue after) = ["uploading"]
  ∧ requests (uploadQueue after) = [(0%nat, "/api/ingest/job/null/status")].
Proof. vm_compute. done. Qed.

(** C10 (code defect): a settling pass changes fields it should not touch,
    because it overwrites the registry with the queue it read at its start.
    It resets [jobId] and [documentId] merged from an upload response to
    null; it turns an entry that is failed back to [uploading], with its
    message gone; and it drops an entry added while it was waiting. *)
Theorem settling_pass_rewrites_registry :
  let settle events := step (run events) (PassSettled 0 (λ _, Rejected)) in
  ((jobId <$> uploadQueue (run responseDuringPass)) = [Some "J1"]
   ∧ (documentId <$> uploadQueue (run responseDuringPass)) = [Some "D1"]
   ∧ (jobId <$> uploadQueue (settle responseDuringPass)) = [None]
   ∧ (documentId <$> uploadQueue (settle responseDuringPass)) = [None])
  ∧ ((status <$> uploadQueue (run rejectionDuringPass)) = ["failed"]
     ∧ (message <$> uploadQueue (run rejectionDuringPass))
       = [Some "unsupported type"]
     ∧ (status <$> uploadQueue (settle rejectionDuringPass)) = ["uploading"]
     ∧ (message <$> uploadQueue (settle rejectionDuringPass)) = [None])
  ∧ ((id <$> uploadQueue (run uploadDuringPass)) = ["1000"; "2000"]
     ∧ (id <$> uploadQueue (settle uploadDuringPass)) = ["1000"]).
Proof. vm_compute. done. Qed.

(** ** Invariants of the queue over all runs *)

Lemma run_snoc events ev : run (events ++ [ev]) = step (run events) ev.
Proof. unfold run. by rewrite foldl_app. Qed.

Lemma uploads_snoc events ev :
  uploads (events ++ [ev]) = (uploads events + if isUpload ev then 1 else 0)%nat.
Proof.
  unfold uploads. rewrite List.filter_app, length_app. simpl.
  by destruct (isUpload ev).
Qed.

Section RunInvariant.

(** A property of a queue that may mention the events so far. *)
Variable I : list Event → list Item → Prop.

Hypothesis I_initial : I [] [].
Hypothesis I_event : ∀ events ev q,
  I events q → q ≠ [] ∨ isUpload ev = false → I (events ++ [ev]) q.
Hypothesis I_enqueue : ∀ events now name q,
  I events q → I (events ++ [Upload now name]) (enqueue now name q).
Hypothesis I_resolved : ∀ events uid job_id document_id q,
  I events q → I events (uploadResolved uid job_id document_id q).
Hypothesis I_rejected : ∀ events uid detail errorMessage q,
  I events q → I events (uploadRejected uid detail errorMessage q).
Hypothesis I_pass : ∀ events fetch q,
  I events q → q ≠ [] → I events (updatedQueue fetch q).

(** Such a property holds of the queue after every run, and of every
    snapshot held by a pass in flight; the snapshots are never empty. *)
Lemma run_invariant events :
  I events (uploadQueue (run events))
  ∧ Forall (λ snapshot, snapshot ≠ [] ∧ I events snapshot) (passes (run events)).
Proof.
  induction events as [|ev events IH] using rev_ind.
  - split; [exact I_initial | constructor].
  - destruct IH as [IHq IHp]. rewrite run_snoc.
    destruct (run_noStamps events) as [Hstamps _].
    set (app := run events) in *.
    assert (Forall (λ snapshot, snapshot ≠ [] ∧ I (events ++ [ev]) snapshot)
              (passes app)) as Hkeep.
    { eapply Forall_impl; [exact IHp|]. intros s [Hne Hs]. split; [done|].
      apply I_event; auto. }
    destruct ev as [now name|uid j d|uid detail msg| |k fetch|now]; cbn [step].
    + split; [by apply I_enqueue | exact Hkeep].
    + split; [|exact Hkeep]. cbn [setUploadQueue uploadQueue].
      apply I_event; [by apply I_resolved | by right].
    + split; [|exact Hkeep]. cbn [setUploadQueue uploadQueue].
      apply I_event; [by apply I_rejected | by right].
    + destruct (uploadQueue app) as [|item q] eqn:E.
      * rewrite E. split; [|exact Hkeep]. apply I_event; [done | by right].
      * cbn [uploadQueue passes]. split.
        { apply I_event; [done | by right]. }
        apply Forall_app. split; [exact Hkeep|]. apply Forall_singleton.
        split; [done|]. apply I_event; [done | by right].
    + destruct (passes app !! k) as [snapshot|] eqn:E.
      * destruct (passSettled_queue app k fetch snapshot E) as (Hq & Hp & _).
        cbn [step] in Hq, Hp. rewrite E in Hq, Hp. rewrite Hq, Hp.
        destruct (Forall_lookup_1 _ _ _ _ IHp E) as [Hne Hs].
        split.
        { apply I_event; [by apply I_pass | by right]. }
        apply Forall_forall. intros s Hin. rewrite Forall_forall in Hkeep.
        apply Hkeep. eapply list_subseteq_delete, Hin.
      * split; [|exact Hkeep]. apply I_event; [done | by right].
    + destruct (timeouts app).
      * split; [|exact Hkeep]. apply I_event; [done | by right].
      * cbn [uploadQueue passes]. split; [|exact Hkeep].
        rewrite sweep_of_unstamped by done. apply I_event; [done | by right].
Qed.

End RunInvariant.

(** Every item of the queue, after any run, was created by a call of
    [handleUpload] of that run and still has the id and the file name that
    call gave it; the same holds of the items held by passes in flight. *)
Theorem items_come_from_uploads events :
  let made item :=
    ∃ now name, Upload now name ∈ events
                ∧ id item = uploadId now ∧ filename item = name in
  Forall made (uploadQueue (run events))
  ∧ Forall (Forall made) (passes (run events)).
Proof.
  intros made.
  pose (I := λ (evs : list Event) (q : list Item),
          Forall (λ item, ∃ now name, Upload now name ∈ evs
                                      ∧ id item = uploadId now
                                      ∧ filename item = name) q).
  assert (I events (uploadQueue (run events))
          ∧ Forall (λ s, s ≠ [] ∧ I events s) (passes (run events))) as [Hq Hp].
  { apply run_invariant; unfold I.
    - constructor.
    - intros evs ev q Hq _. eapply Forall_impl; [exact Hq|].
      intros item (now & name & Hin & ?). exists now, name.
      split; [|done]. apply elem_of_app. by left.
    - intros evs now name q Hq. unfold enqueue. apply Forall_app. split.
      + eapply Forall_impl; [exact Hq|].
        intros item (now' & name' & Hin & ?). exists now', name'.
        split; [|done]. apply elem_of_app. by left.
      + apply Forall_singleton. exists now, name. split; [|done].
        apply elem_of_app. right. by apply list_elem_of_singleton.
    - intros evs uid j d q Hq. unfold uploadResolved. apply Forall_fmap.
      eapply Forall_impl; [exact Hq|]. intros item Hitem. simpl.
      by destruct (bool_decide (id item = uid)).
    - intros evs uid detail msg q Hq. unfold uploadRejected. apply Forall_fmap.
      eapply Forall_impl; [exact Hq|]. intros item Hitem. simpl.
      by destruct (bool_decide (id item = uid)).
    - intros evs fetch q Hq _. apply Forall_lookup. intros idx new.
      rewrite updatedQueue_lookup. destruct (q !! idx) as [old|] eqn:E; [|done].
      simpl. intros [= <-].
      destruct (pollItem_frame (fetch idx) old) as (Hid & Hname & _).
      rewrite Hid, Hname. apply (Forall_lookup_1 _ _ _ _ Hq E). }
  split; [exact Hq|]. eapply Forall_impl; [exact Hp|]. by intros s [_ Hs].
Qed.

(** The queue never holds more items than [handleUpload] was called, and no
    pass in flight holds more either. *)
Theorem queue_length_bounded_by_uploads events :
  (length (uploadQueue (run events)) ≤ uploads events)%nat
  ∧ Forall (λ snapshot, (length snapshot ≤ uploads events)%nat)
           (passes (run events)).
Proof.
  pose (I := λ (evs : list Event) (q : list Item), (length q ≤ uploads evs)%nat).
  assert (I events (uploadQueue (run events))
          ∧ Forall (λ s, s ≠ [] ∧ I events s) (passes (run events))) as [Hq Hp].
  { apply run_invariant; unfold I.
    - done.
    - intros evs ev q Hq _. rewrite uploads_snoc. lia.
    - intros evs now name q Hq. rewrite uploads_snoc. unfold enqueue.
      rewrite length_app. simpl. lia.
    - intros evs uid j d q Hq. unfold uploadResolved. by rewrite length_fmap.
    - intros evs uid detail msg q Hq. unfold uploadRejected. by rewrite length_fmap.
    - intros evs fetch q Hq _. by rewrite updatedQueue_length. }
  split; [exact Hq|]. eapply Forall_impl; [exact Hp|]. by intros s [_ Hs].
Qed.

(** The queue is empty exactly as long as [handleUpload] has not been
    called: from the first upload on it is never empty again, so the effect
    that polls while [uploadQueue.length !== 0] keeps its interval, and every
    firing of it starts a pass. *)
Theorem queue_empty_iff_no_upload events :
  (uploadQueue (run events) = [] ↔ uploads events = 0%nat)
  ∧ (uploads events ≠ 0%nat →
     passes (step (run events) Tick)
     = passes (run events) ++ [uploadQueue (run events)]).
Proof.
  pose (I := λ (evs : list Event) (q : list Item),
          q = [] ↔ uploads evs = 0%nat).
  assert (I events (uploadQueue (run events))) as Hq.
  { apply run_invariant; unfold I.
    - done.
    - intros evs ev q Hq [Hne|Hev]; rewrite uploads_snoc.
      + split; [done|]. intros Hup. apply Hq. lia.
      + rewrite Hev, Nat.add_0_r. exact Hq.
    - intros evs now name q _. rewrite uploads_snoc. simpl.
      unfold enqueue. split; [by destruct q | lia].
    - intros evs uid j d q Hq. rewrite <- Hq. unfold uploadResolved.
      by destruct q.
    - intros evs uid detail msg q Hq. rewrite <- Hq. unfold uploadRejected.
      by destruct q.
    - intros evs fetch q Hq Hne. split; [|by intros ?%Hq].
      intros Hnil. destruct Hne. apply length_zero_iff_nil.
      rewrite <- (updatedQueue_length fetch), Hnil. done. }
  unfold I in Hq. split; [exact Hq|].
  intros Hup. apply tick_on_items. by rewrite Hq.
Qed.

(** Every item of the queue without a message is still uploading or queued:
    the first answer of the status endpoint and a rejected upload both write
    one. *)
Lemma message_present_after_first_answer events :
  Forall (λ item, message item = None →
                  status item = "uploading" ∨ status item = "queued")
         (uploadQueue (run events)).
Proof.
  pose (I := λ (evs : list Event) (q : list Item),
          Forall (λ item, message item = None →
                          status item = "uploading" ∨ status item = "queued") q).
  apply (run_invariant I); unfold I.
  - constructor.
  - by intros evs ev q Hq _.
  - intros evs now name q Hq. unfold enqueue. apply Forall_app. split; [done|].
    apply Forall_singleton. intros _. by left.
  - intros evs uid j d q Hq. unfold uploadResolved. apply Forall_fmap.
    eapply Forall_impl; [exact Hq|]. intros item Hitem. simpl.
    destruct (bool_decide (id item = uid)); [|done]. intros _. by right.
  - intros evs uid detail msg q Hq. unfold uploadRejected. apply Forall_fmap.
    eapply Forall_impl; [exact Hq|]. intros item Hitem. simpl.
    by destruct (bool_decide (id item = uid)).
  - intros evs fetch q Hq _. apply Forall_lookup. intros idx new.
    rewrite updatedQueue_lookup. destruct (q !! idx) as [old|] eqn:E; [|done].
    simpl. intros [= <-]. pose proof (Forall_lookup_1 _ _ _ _ Hq E) as Hold.
    unfold pollItem. destruct (isFinished old); [done|].
    by destruct (fetch idx).
Qed.

Lemma statusText_failed item :
  status item = "failed" →
  statusText item = "Failed: " +:+ templateUndefined (message item).
Proof. unfold statusText. by intros ->. Qed.

(** The queue component renders a failed item as [Failed: ] followed by its
    message; after any run every failed item of the queue has a message, so
    the text never reads [Failed: undefined]. *)
Theorem failed_item_shows_its_message events item :
  item ∈ uploadQueue (run events) → status item = "failed" →
  ∃ m, message item = Some m ∧ statusText item = "Failed: " +:+ m.
Proof.
  intros Hin Hst.
  pose proof (message_present_after_first_answer events) as Hinv.
  rewrite Forall_forall in Hinv. specialize (Hinv item Hin).
  destruct (message item) as [m|] eqn:E.
  - exists m. split; [done|]. rewrite statusText_failed by done. by rewrite E.
  - destruct Hinv as [Hs|Hs]; [done| |]; rewrite Hst in Hs; discriminate.
Qed.

Lemma failed_item_shows_its_message_witness :
  ∃ m,
    message (mkItem "1000" "bad.exe" "failed" 0 None None
               (Some "unsupported type") None) = Some m
    ∧ statusText (mkItem "1000" "bad.exe" "failed" 0 None None
                    (Some "unsupported type") None) = "Failed: " +:+ m.
Proof.
  apply (failed_item_shows_its_message
           [Upload 1000 "bad.exe";
            UploadRejected "1000" (Some "unsupported type") "Network Error"]).
  - vm_compute. apply list_elem_of_singleton. reflexivity.
  - reflexivity.
Defined.

(** Over any run the document list is refreshed at most once per settled
    pass; uploads, their responses, interval firings and removal timeouts
    never refresh it. *)
Theorem refreshes_bounded_by_settled_passes events :
  (documentFetches (run events) ≤ settledPasses events)%nat.
Proof.
  induction events as [|ev events IH] using rev_ind; [done|].
  rewrite run_snoc. unfold settledPasses in *.
  rewrite List.filter_app, length_app.
  set (app := run events) in *.
  destruct ev as [now name|uid j d|uid detail msg| |k fetch|now];
    cbn [step List.filter isPassSettled length].
  - cbn [setUploadQueue documentFetches]. lia.
  - cbn [setUploadQueue documentFetches]. lia.
  - cbn [setUploadQueue documentFetches]. lia.
  - destruct (uploadQueue app); cbn [documentFetches]; lia.
  - destruct (passes app !! k) as [snapshot|]; [|lia].
    rewrite performAll_documentFetches, refreshSignals_pass.
    cbn [documentFetches]. destruct (hasCompleted _ _); lia.
  - destruct (timeouts app); cbn [documentFetches]; lia.
Qed.

(** ** Where a [documentId] comes from *)

Lemma fromResponse_later events ev item :
  fromResponse events item → fromResponse (events ++ [ev]) item.
Proof.
  intros Hitem d Hd. destruct (Hitem d Hd) as [job_id Hin].
  exists job_id. apply elem_of_app. by left.
Qed.

Lemma fromResponse_pollItem events outcome item :
  fromResponse events item → fromResponse events (pollItem outcome item).
Proof.
  unfold fromResponse.
  destruct (pollItem_frame outcome item) as (-> & _ & _ & ->). done.
Qed.

(** After any run, in the registry and in the queue read by every pass in
    flight, an item has a [documentId] only if an upload request for its id
    has resolved with that document id. *)
Lemma documentIds_from_responses events :
  Forall (fromResponse events) (uploadQueue (run events))
  ∧ Forall (Forall (fromResponse events)) (passes (run events)).
Proof.
  induction events as [|ev events IH] using rev_ind.
  - split; constructor.
  - destruct IH as [IHq IHp]. rewrite run_snoc.
    set (app := run events) in *.
    assert (Forall (fromResponse (events ++ [ev])) (uploadQueue app)) as Hq.
    { eapply Forall_impl; [exact IHq|]. intros item. apply fromResponse_later. }
    assert (Forall (Forall (fromResponse (events ++ [ev]))) (passes app)) as Hp.
    { eapply Forall_impl; [exact IHp|]. intros snapshot Hs.
      eapply Forall_impl; [exact Hs|]. intros item. apply fromResponse_later. }
    destruct ev as [now name|uid j d|uid detail msg| |k fetch|now]; cbn [step].
    + split; [|exact Hp]. cbn [setUploadQueue uploadQueue]. unfold enqueue.
      apply Forall_app. split; [exact Hq|]. apply Forall_singleton.
      intros d' Hd'. discriminate.
    + split; [|exact Hp]. cbn [setUploadQueue uploadQueue].
      unfold uploadResolved. apply Forall_fmap.
      eapply Forall_impl; [exact Hq|]. intros item Hitem. simpl.
      case_bool_decide as Hid; [|done].
      intros d' Hd'. simpl in Hd'. subst d. simpl. exists j.
      apply elem_of_app. right. apply list_elem_of_singleton. by rewrite Hid.
    + split; [|exact Hp]. cbn [setUploadQueue uploadQueue].
      unfold uploadRejected. apply Forall_fmap.
      eapply Forall_impl; [exact Hq|]. intros item Hitem. simpl.
      by case_bool_decide.
    + destruct (uploadQueue app) as [|item q] eqn:E.
      * split; [by rewrite E | exact Hp].
      * cbn [uploadQueue passes]. split; [done|].
        apply Forall_app. split; [exact Hp|]. by apply Forall_singleton.
    + destruct (passes app !! k) as [snapshot|] eqn:E; [|by split].
      destruct (passSettled_queue app k fetch snapshot E) as (Hq' & Hp' & _).
      cbn [step] in Hq', Hp'. rewrite E in Hq', Hp'. rewrite Hq', Hp'.
      split.
      * apply Forall_lookup. intros idx new. rewrite updatedQueue_lookup.
        destruct (snapshot !! idx) as [old|] eqn:Eold; [|done].
        simpl. intros [= <-]. apply fromResponse_pollItem.
        apply (Forall_lookup_1 _ _ _ _ (Forall_lookup_1 _ _ _ _ Hp E) Eold).
      * apply Forall_forall. intros s Hin. rewrite Forall_forall in Hp.
        apply Hp. eapply list_subseteq_delete, Hin.
    + destruct (timeouts app); [by split|].
      cbn [uploadQueue passes]. split; [|exact Hp].
      apply Forall_forall. intros item Hin.
      apply elem_of_sweep in Hin as [Hin _].
      rewrite Forall_forall in Hq. by apply Hq.
Qed.

(** C9 (amended): [documentId] is null when the item is created.  The merge
    of a resolved upload request sets it, on the items carrying the id of
    that upload, to the document id of the response, in the same update that
    sets the status to [queued] and the job id; the other items are left as
    they are.  After any run an item of the registry has a [documentId] only
    if an upload request for its id has resolved with that document id: it
    is null until then, and it is never set on completion. *)
Theorem documentId_set_by_upload_response :
  (∀ now name, documentId (newItem now name) = None)
  ∧ (∀ uid job_id document_id prev,
       Forall2 (λ old new,
                  if decide (id old = uid)
                  then status new = "queued" ∧ jobId new = job_id
                       ∧ documentId new = document_id
                  else new = old)
               prev (uploadResolved uid job_id document_id prev))
  ∧ (∀ events,
       Forall (λ item,
                 ∀ d, documentId item = Some d →
                      ∃ job_id, UploadResolved (id item) job_id (Some d) ∈ events)
              (uploadQueue (run events))).
Proof.
  split; [done|]. split.
  - intros uid job_id document_id prev. unfold uploadResolved.
    apply Forall2_fmap_r, Forall_Forall2_diag, Forall_forall.
    intros item _. simpl.
    destruct (decide (id item = uid)) as [Hid|Hid].
    + by rewrite bool_decide_eq_true_2.
    + by rewrite bool_decide_eq_false_2.
  - intros events. apply (proj1 (documentIds_from_responses events)).
Qed.

(** ** Ids given by [handleUpload] *)

Lemma uploadAll_app calls (prev : list Item) :
  uploadAll calls prev = prev ++ ((λ call, newItem call.1 call.2) <$> calls).
Proof.
  unfold uploadAll. revert prev.
  induction calls as [|call calls IH]; intros prev; simpl.
  - by rewrite app_nil_r.
  - rewrite IH. unfold enqueue. by rewrite <- app_assoc.
Qed.

(** Calls of [handleUpload] on an empty queue create one item per call, in
    call order and with the file names given; the ids of these items are
    pairwise different exactly when the clock values read by the calls are
    pairwise different. *)
Theorem upload_ids_distinct_iff_clock_distinct (calls : list (Z * string)) :
  filename <$> uploadAll calls [] = calls.*2
  ∧ (NoDup (id <$> uploadAll calls []) ↔ NoDup calls.*1).
Proof.
  rewrite uploadAll_app, app_nil_l, <- !list_fmap_compose. split.
  - done.
  - rewrite <- (NoDup_fmap uploadId calls.*1).
    by rewrite <- list_fmap_compose.
Qed.

(** ** Rendering of the queue *)

Lemma known_status_cases (s : string) :
  s ∈ knownStatuses ↔
  s = "uploading" ∨ s = "queued" ∨ s = "processing" ∨ s = "completed"
  ∨ s = "failed".
Proof.
  unfold knownStatuses. rewrite !elem_of_cons, elem_of_nil. tauto.
Qed.

Ltac status_cases :=
  repeat case_bool_decide; subst; simpl;
  try done; try (by intuition (discriminate || congruence)).

(** The five statuses the queue component knows are drawn with five
    different colours and five different icons, none of them the fallback
    grey or bullet; any other status the endpoint may report is drawn with
    the fallback colour and icon, with no status text and no progress
    bar. *)
Theorem status_rendering_distinguishes (s1 s2 : string) :
  (getStatusColor s1 = "#6B7280" ↔ s1 ∉ knownStatuses)
  ∧ (getStatusIcon s1 = "•" ↔ s1 ∉ knownStatuses)
  ∧ (s1 ∈ knownStatuses →
     getStatusColor s1 = getStatusColor s2 ∨ getStatusIcon s1 = getStatusIcon s2 →
     s1 = s2)
  ∧ (∀ item, status item = s1 → s1 ∉ knownStatuses →
             statusText item = "" ∧ showsProgressBar item = false).
Proof.
  rewrite !known_status_cases. split; [|split; [|split]].
  - unfold getStatusColor. status_cases.
  - unfold getStatusIcon. status_cases.
  - intros Hknown [Hsame|Hsame]; revert Hsame.
    + unfold getStatusColor. status_cases.
    + unfold getStatusIcon. status_cases.
  - intros item <- Hunknown. rewrite known_status_cases in Hunknown.
    unfold statusText, showsProgressBar, rendered. status_cases.
Qed.

(** ** Files handed to [handleUpload] *)

(** A drop hands only the first of the dropped files to [handleUpload], the
    others are ignored; a selection in the file dialog hands over every
    file, in order.  A drop or selection of no file makes no call. *)
Theorem drop_takes_first_file_only (useGPU : bool) (files : list string) :
  (handleDrop files).*1 = take 1 files
  ∧ (handleChange useGPU files).*1 = files
  ∧ (length (handleDrop files) = 1 `min` length files)%nat
  ∧ length (handleChange useGPU files) = length files.
Proof.
  assert ((handleChange useGPU files).*1 = files) as Hall.
  { unfold handleChange. case_bool_decide as Hlen.
    - rewrite <- list_fmap_compose. apply list_fmap_id.
    - destruct files; [done|]. simpl in Hlen. lia. }
  split; [by destruct files|]. split; [done|]. split.
  - by destruct files.
  - by rewrite <- Hall at 2; rewrite length_fmap.
Qed.

(** ** Tags of a document card *)

(** The tag row of a card shows the first three tags and, when there are
    more, the number of the remaining ones, so that the tags shown and the
    number after [+] add up to all tags; a card without tags has no tag
    row. *)
Theorem tag_row_accounts_for_all_tags (tags : option (list string)) :
  match tagChips tags with
  | Some (shown, more) =>
      ∃ l, tags = Some l ∧ l ≠ []
           ∧ shown = take 3 l
           ∧ (length shown ≤ 3)%nat
           ∧ Z.of_nat (length shown) + default 0 more = Z.of_nat (length l)
           ∧ (more = None ↔ shown = l)
           ∧ (∀ n, more = Some n → 0 < n)
  | None => tags = None ∨ tags = Some []
  end.
Proof.
  unfold tagChips. destruct tags as [l|]; [|by left].
  case_bool_decide as Hlen.
  - exists l. split; [done|]. split; [intros ->; simpl in Hlen; lia|].
    split; [done|]. rewrite length_take. split; [lia|].
    case_bool_decide as Hmore; cbn [default from_option Datatypes.id].
    + rewrite Nat.min_l by lia.
      split; [lia|]. split; [|intros n [= <-]; lia]. split; [done|].
      intros Heq. apply (f_equal length) in Heq. rewrite length_take in Heq. lia.
    + rewrite Nat.min_r by lia.
      split; [lia|]. split; [|done]. split; [|done].
      intros _. apply take_ge. lia.
  - right. destruct l; [done|]. simpl in Hlen. lia.
Qed.

(** ** Detail drawer *)

Section DetailFacts.
Context {D : Type}.

Lemma last_event_differs (evs evs1 evs2 : list (DetailEvent D)) ev (d : D) :
  evs ++ [ev] = evs1 ++ DocumentClicked (Resolved (Some d)) :: evs2 →
  Forall (λ e, e = DocumentClicked Rejected) evs2 →
  (ev = DocumentClicked (Resolved (Some d)) ∧ evs2 = [] ∧ evs = evs1)
  ∨ (ev = DocumentClicked Rejected
     ∧ ∃ evs2', evs2 = evs2' ++ [ev]
                ∧ evs = evs1 ++ DocumentClicked (Resolved (Some d)) :: evs2').
Proof.
  intros Heq Hrej. destruct evs2 as [|e evs2 _] using rev_ind.
  - left. change (evs ++ [ev] = evs1 ++ [DocumentClicked (Resolved (Some d))]) in Heq.
    apply app_inj_tail in Heq as [-> ->]. done.
  - right. rewrite app_comm_cons, app_assoc in Heq.
    apply app_inj_tail in Heq as [-> ->].
    apply Forall_app in Hrej as [_ He]. rewrite Forall_singleton in He.
    split; [done|]. by exists evs2.
Qed.

(** The detail drawer is shown exactly when the last event other than a
    rejected document request was a document request that resolved with a
    document: [closeDetail] hides it, a rejected request leaves it as it is,
    and a request that resolves with no data hides it as well. *)
Theorem drawer_shown_iff_last_request_resolved (evs : list (DetailEvent D)) :
  drawerShown (foldl detailStep detailInitial evs) = true ↔
  ∃ evs1 d evs2,
    evs = evs1 ++ DocumentClicked (Resolved (Some d)) :: evs2
    ∧ Forall (λ ev, ev = DocumentClicked Rejected) evs2.
Proof.
  induction evs as [|ev evs IH] using rev_ind.
  - split; [done|]. intros (evs1 & d & evs2 & Heq & _). by destruct evs1.
  - rewrite foldl_app. cbn [foldl].
    set (st := foldl detailStep detailInitial evs) in *.
    destruct ev as [[[d|]|]|]; cbn [detailStep].
    + split; [|done]. intros _. exists evs, d, []. by split.
    + split; [done|]. intros (evs1 & d & evs2 & Heq & Hrej).
      destruct (last_event_differs _ _ _ _ _ Heq Hrej)
        as [[? _]|[? _]]; discriminate.
    + rewrite IH. split.
      * intros (evs1 & d & evs2 & -> & Hrej).
        exists evs1, d, (evs2 ++ [DocumentClicked Rejected]). split.
        { by rewrite <- app_assoc. }
        apply Forall_app. split; [done|]. by apply Forall_singleton.
      * intros (evs1 & d & evs2 & Heq & Hrej).
        destruct (last_event_differs _ _ _ _ _ Heq Hrej)
          as [[? _]|[_ (evs2' & -> & ->)]]; [discriminate|].
        exists evs1, d, evs2'. split; [done|].
        by apply Forall_app in Hrej as [? _].
    + split; [done|]. intros (evs1 & d & evs2 & Heq & Hrej).
      destruct (last_event_differs _ _ _ _ _ Heq Hrej)
        as [[? _]|[? _]]; discriminate.
Qed.

End DetailFacts.
